(** * A shallow embedding of the directory watcher [src/main.rs]

    Instants are integers (nanoseconds of a monotonic clock), durations are
    integers that are never negative.  The [VecDeque<Instant>] of the event
    buffer is a list whose head is the front and whose last element is the
    back.  Paths and strings are [string]; path decomposition follows Rust's
    [std::path::Path] on Unix.  The notify crate's [EventKind] is rendered
    as inductive types. *)

From Stdlib Require Import List String Ascii ZArith Lia Sorted Bool.
Import ListNotations.
Open Scope Z_scope.

(* ------------------------------------------------------------------ *)
(** ** Time *)

Definition Instant := Z.
Definition Duration := Z.

Definition ms (n : Z) : Duration := n * 1000000.

(** [Instant::duration_since]: saturates at zero when [earlier] is later. *)
Definition duration_since (now earlier : Instant) : Duration :=
  Z.max 0 (now - earlier).

(* ------------------------------------------------------------------ *)
(** ** [EventBuffer] *)

Record EventBuffer := mkEventBuffer {
  events : list Instant;   (* VecDeque: head = front, last = back *)
  window : Duration
}.

Definition EventBuffer_new (w : Duration) : EventBuffer :=
  {| events := []; window := w |}.

(** [VecDeque::back] *)
Fixpoint back (l : list Instant) : option Instant :=
  match l with
  | [] => None
  | [t] => Some t
  | _ :: l' => back l'
  end.

Definition is_empty (l : list Instant) : bool :=
  match l with [] => true | _ => false end.

(** The [while let Some(time) = self.events.front()] loop of [add_event]. *)
Fixpoint prune_front (now : Instant) (w : Duration) (l : list Instant)
  : list Instant :=
  match l with
  | [] => []
  | time :: l' =>
      if duration_since now time >? w then prune_front now w l' else l
  end.

Definition add_event (b : EventBuffer) (now : Instant) : EventBuffer :=
  {| events := prune_front now b.(window) b.(events) ++ [now];
     window := b.(window) |}.

(** [should_trigger]; the [Instant::now()] it reads is the argument [now]. *)
Definition should_trigger (b : EventBuffer) (min_quiet_period : Duration)
    (now : Instant) : bool :=
  match back b.(events) with
  | Some last_event =>
      (duration_since now last_event >=? min_quiet_period)
      && negb (is_empty b.(events))
  | None => false
  end.

Definition clear (b : EventBuffer) : EventBuffer :=
  {| events := []; window := b.(window) |}.

(* ------------------------------------------------------------------ *)
(** ** [notify::EventKind] and [is_relevant_event] *)

Inductive AccessMode := AMAny | AMExecute | AMRead | AMWrite | AMOther.
Inductive AccessKind :=
  | AccessAny | AccessRead | AccessOpen (m : AccessMode)
  | AccessClose (m : AccessMode) | AccessOther.
Inductive CreateKind := CreateAny | CreateFile | CreateFolder | CreateOther.
Inductive DataChange := DataAny | DataSize | DataContent | DataOther.
Inductive MetadataKind :=
  | MetaAny | MetaAccessTime | MetaWriteTime | MetaPermissions
  | MetaOwnership | MetaExtended | MetaOther.
Inductive RenameMode := RenameAny | RenameTo | RenameFrom | RenameBoth | RenameOther.
Inductive ModifyKind :=
  | ModifyAny | ModifyData (d : DataChange) | ModifyMetadata (m : MetadataKind)
  | ModifyName (r : RenameMode) | ModifyOther.
Inductive RemoveKind := RemoveAny | RemoveFile | RemoveFolder | RemoveOther.
Inductive EventKind :=
  | KindAny
  | Access (k : AccessKind)
  | Create (k : CreateKind)
  | Modify (k : ModifyKind)
  | Remove (k : RemoveKind)
  | KindOther.

Definition is_relevant_event (event_kind : EventKind) : bool :=
  match event_kind with
  | Create CreateFile
  | Modify (ModifyData _)
  | Modify (ModifyName _)
  | Remove RemoveFile => true
  | _ => false
  end.

(* ------------------------------------------------------------------ *)
(** ** [std::path::Path] on Unix: [file_name] and [extension] *)

(** Split a byte string at every ['/']. *)
Fixpoint split_slash (l : list ascii) : list (list ascii) :=
  match l with
  | [] => [[]]
  | c :: l' =>
      if Ascii.eqb c "/"%char then [] :: split_slash l'
      else match split_slash l' with
           | [] => [[c]]
           | p :: ps => (c :: p) :: ps
           end
  end.

(** The pieces that [Path::components] keeps as its trailing components:
    empty pieces (repeated or trailing slashes) and ["."] are dropped. *)
Definition keep_piece (p : list ascii) : bool :=
  match p with
  | [] => false
  | ["."%char] => false
  | _ => true
  end.

Fixpoint last_piece (ps : list (list ascii)) : option (list ascii) :=
  match ps with
  | [] => None
  | [p] => Some p
  | _ :: ps' => last_piece ps'
  end.

(** [Path::file_name]: the last normal component; none for [..], [/], [.]. *)
Definition file_name (path : string) : option (list ascii) :=
  match last_piece (filter keep_piece (split_slash (list_ascii_of_string path))) with
  | Some p =>
      match p with
      | ["."%char; "."%char] => None
      | _ => Some p
      end
  | None => None
  end.

(** Find the first occurrence of [c]: the part before it and the part after. *)
Fixpoint break_at (c : ascii) (l : list ascii) : option (list ascii * list ascii) :=
  match l with
  | [] => None
  | x :: l' =>
      if Ascii.eqb x c then Some ([], l')
      else match break_at c l' with
           | Some (a, b) => Some (x :: a, b)
           | None => None
           end
  end.

(** [rsplit_file_at_dot] followed by [before.and(after)]: the part after the
    last dot, provided the part before it is non-empty. *)
Definition name_extension (name : list ascii) : option (list ascii) :=
  match break_at "."%char (rev name) with
  | None => None
  | Some (rafter, rbefore) =>
      match rbefore with
      | [] => None
      | _ => Some (rev rafter)
      end
  end.

Definition extension (path : string) : option string :=
  match file_name path with
  | Some name =>
      match name_extension name with
      | Some e => Some (string_of_list_ascii e)
      | None => None
      end
  | None => None
  end.

Definition has_matching_extension (path : string) (extensions : list string) : bool :=
  if match extensions with [] => true | _ => false end then true
  else match extension path with
       | Some ext => existsb (fun e => String.eqb e ext) extensions
       | None => false
       end.

(* ------------------------------------------------------------------ *)
(** ** Results, errors and the observable trace *)

Inductive Result (A E : Type) : Type :=
  | Ok (a : A)
  | Err (e : E).
Arguments Ok {A E} a.
Arguments Err {A E} e.

(** [Box<dyn std::error::Error>] and [notify::Error], by their message. *)
Record Error := mkError { err_msg : string }.

(** [std::process::ExitStatus] on Unix: [code] is [None] when the child was
    killed by a signal; [success] iff the code is [0]. *)
Record ExitStatus := mkExitStatus { code : option Z }.

Definition success (s : ExitStatus) : bool :=
  match s.(code) with Some 0 => true | _ => false end.

(** What the program prints, without the terminal colours. *)
Inductive Msg :=
  | MsgLine (line : string)
  | MsgChangeDetected
  | MsgExecuting
  | MsgFailedStatus (s : ExitStatus)
  | MsgExitCode (c : Z)
  | MsgSuccess
  | MsgWaitError (e : Error)
  | MsgWaiting
  | MsgWatchDisconnected
  | MsgStartup (line : string).

(** Observable actions, in the order they happen. *)
Inductive Action :=
  | Print (to_stderr : bool) (m : Msg)   (* println! ([false]) / eprintln! ([true]) *)
  | Spawned                              (* Command::spawn succeeded *)
  | DrainEof (is_stderr : bool)          (* a drain thread's reader hit end of stream *)
  | Joined (is_stderr : bool)            (* JoinHandle::join returned *)
  | Waited.                              (* Child::wait returned *)

(* ------------------------------------------------------------------ *)
(** ** The drain threads and one command invocation *)

(** [process_output]: every line read is printed on its stream, lines that
    fail to read are skipped by [filter_map(|line| line.ok())], and the
    thread ends when the reader reaches end of stream. *)
Fixpoint process_output (lines : list (option string)) (is_stderr : bool)
  : list Action :=
  match lines with
  | [] => [DrainEof is_stderr]
  | Some line :: rest => Print is_stderr (MsgLine line) :: process_output rest is_stderr
  | None :: rest => process_output rest is_stderr
  end.

(** The two drain threads run concurrently: a schedule picks, step by step,
    which of them runs next ([true]: the stdout thread); when the schedule
    is exhausted the remaining steps run in order. *)
Fixpoint interleave (sched : list bool) (a b : list Action) : list Action :=
  match sched with
  | [] => a ++ b
  | true :: s =>
      match a with
      | x :: a' => x :: interleave s a' b
      | [] => interleave s [] b
      end
  | false :: s =>
      match b with
      | y :: b' => y :: interleave s a b'
      | [] => interleave s a []
      end
  end.

(** What [Child::wait] returns. *)
Inductive WaitResult :=
  | WaitOk (s : ExitStatus)
  | WaitErr (e : Error).

(** What the OS does with the spawn request: it fails, or the child runs,
    writes the given lines on stdout and stderr, and ends with [wait]. *)
Inductive SpawnResult :=
  | SpawnFail (e : Error)
  | SpawnOk (stdout stderr : list (option string)) (wait : WaitResult).

(** The [match child.wait()] report. *)
Definition report_wait (w : WaitResult) : list Action :=
  match w with
  | WaitOk status =>
      if negb (success status) then
        Print true (MsgFailedStatus status)
          :: match status.(code) with
             | Some c => [Print true (MsgExitCode c)]
             | None => []
             end
      else [Print false MsgSuccess]
  | WaitErr e => [Print true (MsgWaitError e)]
  end.

(** Lines 174-221 of [main]: spawn (with [?]), start the two drain threads,
    join stdout then stderr, wait, report.  The [Err] result is the error
    that [?] returns from [main]. *)
Definition run_command (sched : list bool) (sp : SpawnResult)
  : list Action * Result unit Error :=
  match sp with
  | SpawnFail e => ([], Err e)
  | SpawnOk out err w =>
      ([Spawned]
         ++ interleave sched (process_output out false) (process_output err true)
         ++ [Joined false; Joined true; Waited]
         ++ report_wait w,
       Ok tt)
  end.

(* ------------------------------------------------------------------ *)
(** ** The watcher callback *)

(** [notify::Event]: its kind and its paths. *)
Record Event := mkEvent { kind : EventKind; paths : list string }.

(** The closure passed to [notify::recommended_watcher]: an [Ok] event is
    sent on the channel ([tx.send(event).unwrap()] cannot fail while [main]
    holds [rx]); the result is what is sent and what is printed. *)
Definition watcher_callback (res : Result Event Error) : list Event * list Action :=
  match res with
  | Ok event => ([event], [])
  | Err _ => ([], [])
  end.

(* ------------------------------------------------------------------ *)
(** ** Startup: [Cli], [get_user_shell] and the first lines of [main] *)

Record Cli := mkCli {
  directory : string;
  command : string;
  extensions : list string
}.










(** Everything the run loop reads from the startup phase. *)
Record Config := mkConfig {
  cfg_cli : Cli;
  cfg_shell : string;
  cfg_shell_command : string;
  cfg_quiet_period : Duration
}.


(** Exit code of [main] returning a [Result]: [Ok] gives 0, [Err] prints
    the error and gives 1. *)
Definition main_exit_code (r : Result unit Error) : Z :=
  match r with Ok _ => 0 | Err _ => 1 end.


(* ------------------------------------------------------------------ *)
(** ** The run loop *)

(** What [rx.recv_timeout(Duration::from_millis(100))] returns. *)
Inductive Recv :=
  | RecvOk (event : Event)
  | RecvTimeout
  | RecvDisconnected.

(** One turn of the loop: the receive result, the value [Instant::now()]
    has during the turn, the schedule of the drain threads and what the OS
    does with a spawn, should the turn run the command. *)
Record LoopInput := mkLoopInput {
  li_recv : Recv;
  li_now : Instant;
  li_sched : list bool;
  li_spawn : SpawnResult
}.

Inductive Step :=
  | StepContinue (b : EventBuffer) (tr : list Action)
  | StepBreak (tr : list Action)
  | StepReturn (tr : list Action) (e : Error).   (* [?] leaves [main] *)

Definition loop_step (cfg : Config) (b : EventBuffer) (i : LoopInput) : Step :=
  match i.(li_recv) with
  | RecvOk event =>
      if negb (is_relevant_event event.(kind)) then StepContinue b []
      else
        let matching_path :=
          existsb (fun path => has_matching_extension path cfg.(cfg_cli).(extensions))
            event.(paths) in
        if negb matching_path then StepContinue b []
        else StepContinue (add_event b i.(li_now)) []
  | RecvTimeout =>
      if should_trigger b cfg.(cfg_quiet_period) i.(li_now) then
        let head := [Print false MsgChangeDetected; Print false MsgExecuting] in
        match run_command i.(li_sched) i.(li_spawn) with
        | (tr, Err e) => StepReturn (head ++ tr) e
        | (tr, Ok _) =>
            StepContinue (clear b) (head ++ tr ++ [Print false MsgWaiting])
        end
      else StepContinue b []
  | RecvDisconnected => StepBreak [Print true MsgWatchDisconnected]
  end.

Inductive LoopEnd :=
  | LoopRunning (b : EventBuffer)            (* the inputs ran out, still looping *)
  | LoopExited (r : Result unit Error).      (* [main] returned [r] *)

(** The [loop] over a finite sequence of turns; [break] goes on to [Ok(())]. *)
Fixpoint run_loop (cfg : Config) (b : EventBuffer) (inputs : list LoopInput)
  : list Action * LoopEnd :=
  match inputs with
  | [] => ([], LoopRunning b)
  | i :: rest =>
      match loop_step cfg b i with
      | StepContinue b' tr =>
          let '(tr', r) := run_loop cfg b' rest in (tr ++ tr', r)
      | StepBreak tr => (tr, LoopExited (Ok tt))
      | StepReturn tr e => (tr, LoopExited (Err e))
      end
  end.

(* ------------------------------------------------------------------ *)
(** ** Concrete inputs *)

Definition example_config : Config :=
  {| cfg_cli := {| directory := "."; command := "cargo test"; extensions := ["rs"] |};
     cfg_shell := "/bin/sh";
     cfg_shell_command := "true; cargo test";
     cfg_quiet_period := ms 500 |}%string.

(** The buffer after events recorded at 0ms, 150ms and 300ms. *)
Definition burst_buffer : EventBuffer :=
  add_event (add_event (add_event (EventBuffer_new (ms 1000)) 0) (ms 150)) (ms 300).

Definition main_rs_modified : Event :=
  {| kind := Modify (ModifyData DataContent); paths := ["src/main.rs"%string] |}.

(** Whether an action is a step of the drain thread of the given stream:
    one of its printed lines or its end of stream. *)
Definition drain_step_of (is_stderr : bool) (a : Action) : bool :=
  match a with
  | Print s (MsgLine _) => Bool.eqb s is_stderr
  | DrainEof s => Bool.eqb s is_stderr
  | _ => false
  end.

(** How many children a trace spawns. *)
Definition count_spawned (tr : list Action) : nat :=
  List.length (filter (fun a => match a with Spawned => true | _ => false end) tr).

(** The lines that [reader.lines().filter_map(|line| line.ok())] yields. *)
Fixpoint ok_lines (lines : list (option string)) : list string :=
  match lines with
  | [] => []
  | Some l :: rest => l :: ok_lines rest
  | None :: rest => ok_lines rest
  end.

(** The buffer invariant the loop keeps: timestamps in order, none later
    than [t]. *)
Definition buffer_ok (b : EventBuffer) (t : Instant) : Prop :=
  Sorted Z.le b.(events) /\ Forall (fun x => x <= t) b.(events).

(** Receive timeouts every 100ms from 400ms to 800ms, each spawn succeeding
    with one line of output and exit code 0. *)
Definition quiet_ticks : list LoopInput :=
  map (fun t => {| li_recv := RecvTimeout; li_now := ms t; li_sched := [];
                   li_spawn := SpawnOk [Some "ok"%string] []
                                 (WaitOk (mkExitStatus (Some 0))) |})
    [400; 500; 600; 700; 800].

(* ================================================================== *)
(** * Properties *)

Lemma back_last (l : list Instant) (d : Instant) :
  l <> [] -> back l = Some (last l d).
Proof.
  induction l as [|t l IH]; intros H; [congruence|].
  destruct l as [|u l]; [reflexivity|].
  simpl in *. apply IH. discriminate.
Qed.

Lemma back_app_single (l : list Instant) (t : Instant) :
  back (l ++ [t]) = Some t.
Proof.
  induction l as [|u l IH]; [reflexivity|].
  simpl. destruct (l ++ [t]) eqn:E.
  - destruct l; discriminate.
  - exact IH.
Qed.

(** C1: [should_trigger b q now] holds exactly when the buffer has events
    and at least [q] has elapsed from the last recorded event to [now]; for
    events recorded at 0ms, 150ms and 300ms and a quiet period of 500ms it
    is false at 600ms and true at 800ms. *)
Theorem should_trigger_iff :
  (forall (b : EventBuffer) (q : Duration) (now : Instant),
      should_trigger b q now = true <->
      b.(events) <> [] /\ duration_since now (last b.(events) 0) >= q)
  /\ should_trigger burst_buffer (ms 500) (ms 600) = false
  /\ should_trigger burst_buffer (ms 500) (ms 800) = true.
Proof.
  split; [|split; vm_compute; reflexivity].
  intros [l w] q now; unfold should_trigger; simpl.
  destruct l as [|t l].
  - simpl. split; [discriminate | intros [H _]; congruence].
  - rewrite (back_last (t :: l) 0) by discriminate.
    simpl negb; rewrite andb_true_r, Z.geb_le.
    split; [intros H; split; [discriminate | lia] | intros [_ H]; lia].
Qed.

Lemma prune_front_within (now : Instant) (w : Duration) (l : list Instant) :
  StronglySorted Z.le l -> Forall (fun t => t <= now) l ->
  Forall (fun t => duration_since now t <= w) (prune_front now w l).
Proof.
  induction l as [|t l IH]; intros Hs Hle; simpl; [constructor|].
  inversion Hs as [|? ? Hs' Hge]; subst.
  inversion Hle as [|? ? Ht Hle']; subst.
  destruct (duration_since now t >? w) eqn:E; [apply IH; assumption|].
  rewrite Z.gtb_ltb, Z.ltb_ge in E.
  constructor; [exact E|].
  eapply Forall_impl; [|exact (Forall_and Hge Hle')].
  intros x [Hx1 Hx2]. unfold duration_since in *. lia.
Qed.

(** C7: let the buffer's timestamps be in non-decreasing order and none be
    later than [now]; after [add_event b now] every stored timestamp is
    within [window] of [now], the buffer is non-empty and its back is
    [now]. *)
Theorem add_event_invariant (b : EventBuffer) (now : Instant) :
  0 <= b.(window) ->
  Sorted Z.le b.(events) ->
  Forall (fun t => t <= now) b.(events) ->
  Forall (fun t => duration_since now t <= b.(window)) (add_event b now).(events)
  /\ (add_event b now).(events) <> []
  /\ back (add_event b now).(events) = Some now.
Proof.
  intros Hw Hs Hle. simpl.
  split; [|split].
  - apply Forall_app; split.
    + apply prune_front_within; [|exact Hle].
      apply Sorted_StronglySorted; [exact Z.le_trans | exact Hs].
    + constructor; [unfold duration_since; lia | constructor].
  - destruct (prune_front now (window b) (events b)); discriminate.
  - apply back_app_single.
Qed.

Lemma burst_buffer_events : events burst_buffer = [0; ms 150; ms 300].
Proof. vm_compute. reflexivity. Qed.

Lemma add_event_invariant_witness :
  Forall (fun t => duration_since (ms 400) t <= window burst_buffer)
    (add_event burst_buffer (ms 400)).(events)
  /\ (add_event burst_buffer (ms 400)).(events) <> []
  /\ back (add_event burst_buffer (ms 400)).(events) = Some (ms 400).
Proof.
  apply add_event_invariant.
  - vm_compute. discriminate.
  - rewrite burst_buffer_events. unfold ms. repeat constructor; lia.
  - rewrite burst_buffer_events. unfold ms. repeat constructor; lia.
Defined.

(** C5: with no extensions every path matches; with a non-empty list a path
    matches exactly when its extension (the part after the last dot of its
    file name, compared case-sensitively) is in the list, so a path without
    an extension never matches; with ["rs"], [src/main.rs] matches and
    [src/main.rs.bak] and [README] do not. *)
Theorem has_matching_extension_spec :
  (forall path, has_matching_extension path [] = true)
  /\ (forall path e0 exts,
        has_matching_extension path (e0 :: exts) = true <->
        exists ext, extension path = Some ext /\ In ext (e0 :: exts))
  /\ (forall path exts, extension path = None -> exts <> [] ->
        has_matching_extension path exts = false)
  /\ has_matching_extension "src/main.rs" ["rs"%string] = true
  /\ has_matching_extension "src/main.rs.bak" ["rs"%string] = false
  /\ has_matching_extension "README" ["rs"%string] = false.
Proof.
  split; [reflexivity|].
  split; [|split; [|split; [|split]]; try (vm_compute; reflexivity)].
  - intros path e0 exts. unfold has_matching_extension; simpl negb.
    destruct (extension path) as [ext|].
    + rewrite existsb_exists. split.
      * intros [e [He Heq]]. apply String.eqb_eq in Heq; subst. eauto.
      * intros [x [Hx Hin]]. injection Hx as <-.
        exists ext. split; [exact Hin | apply String.eqb_refl].
    + split; [discriminate | intros [x [Hx _]]; discriminate].
  - intros path exts Hn Hne. unfold has_matching_extension.
    destruct exts; [congruence|]. rewrite Hn. reflexivity.
Qed.

(** C6: [is_relevant_event] holds exactly for file creation, data
    modification, rename and file removal; it fails on folder creation and
    removal, on access and metadata events and on the unspecified kinds. *)
Theorem is_relevant_event_spec :
  (forall k, is_relevant_event k = true <->
     k = Create CreateFile \/ (exists d, k = Modify (ModifyData d))
     \/ (exists r, k = Modify (ModifyName r)) \/ k = Remove RemoveFile)
  /\ is_relevant_event (Create CreateFolder) = false
  /\ is_relevant_event (Remove RemoveFolder) = false
  /\ (forall a, is_relevant_event (Access a) = false)
  /\ (forall m, is_relevant_event (Modify (ModifyMetadata m)) = false)
  /\ is_relevant_event KindAny = false
  /\ is_relevant_event KindOther = false
  /\ is_relevant_event (Create CreateAny) = false
  /\ is_relevant_event (Create CreateOther) = false
  /\ is_relevant_event (Modify ModifyAny) = false
  /\ is_relevant_event (Modify ModifyOther) = false
  /\ is_relevant_event (Remove RemoveAny) = false
  /\ is_relevant_event (Remove RemoveOther) = false
  /\ is_relevant_event (Modify (ModifyData DataContent)) = true.
Proof.
  repeat split; try reflexivity.
  - destruct k as [|a|[]|[]|[]|]; simpl; intros H; try discriminate; eauto 6.
  - intros H. destruct H as [H|[[d H]|[[r H]|H]]]; subst; reflexivity.
Qed.

Lemma in_interleave (x : Action) (sched : list bool) (a b : list Action) :
  In x (interleave sched a b) <-> In x a \/ In x b.
Proof.
  revert a b; induction sched as [|[] s IH]; intros a b; simpl.
  - apply in_app_iff.
  - destruct a as [|y a]; simpl; rewrite ?IH; simpl; tauto.
  - destruct b as [|y b]; simpl; rewrite ?IH; simpl; tauto.
Qed.

Lemma process_output_eof (lines : list (option string)) (is_stderr : bool) :
  In (DrainEof is_stderr) (process_output lines is_stderr).
Proof.
  induction lines as [|[l|] rest IH]; simpl; auto.
Qed.

Lemma process_output_no_wait (lines : list (option string)) (is_stderr : bool) :
  ~ In Waited (process_output lines is_stderr).
Proof.
  induction lines as [|[l|] rest IH]; simpl; intuition discriminate.
Qed.

Lemma report_wait_no_wait (w : WaitResult) : ~ In Waited (report_wait w).
Proof.
  destruct w as [[[c|]]|e]; simpl;
    try destruct (negb _); simpl; intuition discriminate.
Qed.

(** C3: in every invocation the trace of [run_command] is the spawn, then
    the steps of the two drain threads in some interleaving, in which both
    threads reach end of stream, then the join of the stdout thread, the
    join of the stderr thread and only then the single [wait]. *)
Theorem run_command_drains_before_wait
    (sched : list bool) (out err : list (option string)) (w : WaitResult) :
  exists pre,
    fst (run_command sched (SpawnOk out err w))
      = Spawned :: pre ++ [Joined false; Joined true; Waited] ++ report_wait w
    /\ In (DrainEof false) pre /\ In (DrainEof true) pre
    /\ (forall x, In x pre ->
          In x (process_output out false) \/ In x (process_output err true))
    /\ ~ In Waited pre /\ ~ In Waited (report_wait w).
Proof.
  exists (interleave sched (process_output out false) (process_output err true)).
  split; [reflexivity|].
  rewrite !in_interleave.
  split; [left; apply process_output_eof|].
  split; [right; apply process_output_eof|].
  split; [intros x; rewrite in_interleave; tauto|].
  split; [|apply report_wait_no_wait].
  pose proof (process_output_no_wait out false).
  pose proof (process_output_no_wait err true). tauto.
Qed.

(** C10: a relevant event with no paths leaves the buffer unchanged, even
    when the extension list is empty, since the match is an [any] over the
    event's paths. *)
Theorem empty_paths_not_recorded (cfg : Config) (b : EventBuffer) (i : LoopInput)
    (ev : Event) :
  i.(li_recv) = RecvOk ev -> ev.(paths) = [] ->
  loop_step cfg b i = StepContinue b [].
Proof.
  intros Hr Hp. unfold loop_step. rewrite Hr, Hp. simpl.
  destruct (is_relevant_event (kind ev)); reflexivity.
Qed.

Lemma empty_paths_not_recorded_witness :
  let cfg := {| cfg_cli := {| directory := "."; command := "make"; extensions := [] |};
                cfg_shell := "/bin/sh"; cfg_shell_command := "true; make";
                cfg_quiet_period := ms 500 |}%string in
  let ev := {| kind := Create CreateFile; paths := [] |} in
  let i := {| li_recv := RecvOk ev; li_now := 0; li_sched := [];
              li_spawn := SpawnFail (mkError "unused") |}%string in
  (li_recv i = RecvOk ev /\ paths ev = [])
  /\ loop_step cfg (EventBuffer_new (ms 1000)) i
     = StepContinue (EventBuffer_new (ms 1000)) [].
Proof.
  intros cfg ev i. split; [split; reflexivity|].
  apply (empty_paths_not_recorded cfg (EventBuffer_new (ms 1000)) i ev);
    reflexivity.
Defined.

(** C2 (against the code): when the loop decides to run the command and
    the spawn fails, no pipe is drained, the [?] after [spawn()] returns
    the error from [main] and the loop ends with exit code 1. *)
Theorem spawn_failure_exits_main (cfg : Config) (b : EventBuffer) (now : Instant)
    (sched : list bool) (e : Error) (rest : list LoopInput) :
  should_trigger b cfg.(cfg_quiet_period) now = true ->
  run_loop cfg b ({| li_recv := RecvTimeout; li_now := now; li_sched := sched;
                     li_spawn := SpawnFail e |} :: rest)
    = ([Print false MsgChangeDetected; Print false MsgExecuting], LoopExited (Err e))
  /\ main_exit_code (Err e) = 1.
Proof.
  intros H. unfold run_loop, loop_step; simpl. rewrite H. split; reflexivity.
Qed.

Lemma spawn_failure_exits_main_witness :
  should_trigger (add_event (EventBuffer_new (ms 1000)) 0)
    example_config.(cfg_quiet_period) (ms 600) = true
  /\ run_loop example_config (add_event (EventBuffer_new (ms 1000)) 0)
       [{| li_recv := RecvTimeout; li_now := ms 600; li_sched := [];
           li_spawn := SpawnFail (mkError "No such file or directory (os error 2)") |}]
     = ([Print false MsgChangeDetected; Print false MsgExecuting],
        LoopExited (Err (mkError "No such file or directory (os error 2)")))
  /\ main_exit_code (Err (mkError "No such file or directory (os error 2)")) = 1.
Proof.
  assert (H : should_trigger (add_event (EventBuffer_new (ms 1000)) 0)
                example_config.(cfg_quiet_period) (ms 600) = true)
    by (vm_compute; reflexivity).
  split; [exact H|].
  exact (spawn_failure_exits_main example_config _ (ms 600) [] _ [] H).
Defined.

(** The end-to-end run of C2's failing input: a [.rs] file changes, the
    quiet period passes, the spawn fails and [main] returns the error. *)
Lemma spawn_failure_end_to_end :
  run_loop example_config (EventBuffer_new (ms 1000))
    [{| li_recv := RecvOk main_rs_modified; li_now := 0; li_sched := [];
        li_spawn := SpawnFail (mkError "No such file or directory (os error 2)") |};
     {| li_recv := RecvTimeout; li_now := ms 600; li_sched := [];
        li_spawn := SpawnFail (mkError "No such file or directory (os error 2)") |};
     {| li_recv := RecvOk main_rs_modified; li_now := ms 700; li_sched := [];
        li_spawn := SpawnFail (mkError "No such file or directory (os error 2)") |}]
  = ([Print false MsgChangeDetected; Print false MsgExecuting],
     LoopExited (Err (mkError "No such file or directory (os error 2)"))).
Proof. vm_compute. reflexivity. Qed.

(** C4, as the spec states it: on a disconnect the loop ends without a
    panic and the process exits with a non-zero code.  It fails: [break]
    goes on to [Ok(())], whose exit code is 0. *)
Lemma disconnect_exit_code_counterexample :
  match snd (run_loop example_config (EventBuffer_new (ms 1000))
               [{| li_recv := RecvDisconnected; li_now := 0; li_sched := [];
                   li_spawn := SpawnFail (mkError "unused") |}]) with
  | LoopExited r => ~ (main_exit_code r <> 0)
  | LoopRunning _ => False
  end.
Proof. vm_compute. intros H. apply H. reflexivity. Qed.

(** C4, amended: on a disconnect the loop prints the watch error and ends
    by [break], without a panic; [main] returns [Ok(())] and the process
    exits with code 0. *)
Theorem disconnect_breaks_loop (cfg : Config) (b : EventBuffer) (now : Instant)
    (sched : list bool) (sp : SpawnResult) (rest : list LoopInput) :
  run_loop cfg b ({| li_recv := RecvDisconnected; li_now := now; li_sched := sched;
                     li_spawn := sp |} :: rest)
    = ([Print true MsgWatchDisconnected], LoopExited (Ok tt))
  /\ main_exit_code (Ok tt) = 0.
Proof. split; reflexivity. Qed.




(** C9, as the spec states it: a transient watch error is logged.  It
    fails: the callback drops an [Err] without printing anything. *)
Lemma watch_error_counterexample :
  snd (watcher_callback (Err (mkError "inotify read failed"%string))) = [].
Proof. reflexivity. Qed.

(** C9, amended: the watcher callback discards a transient error: nothing
    is sent to the run loop and nothing is printed, so the loop keeps
    running; an event is forwarded unchanged. *)
Theorem watch_error_discarded :
  (forall e, watcher_callback (Err e) = ([], []))
  /\ (forall ev, watcher_callback (Ok ev) = ([ev], [])).
Proof. split; reflexivity. Qed.

(* ------------------------------------------------------------------ *)
(** ** Further properties of the code *)

Lemma process_output_shape (lines : list (option string))
    (is_stderr : bool) :
  process_output lines is_stderr
  = map (fun l => Print is_stderr (MsgLine l)) (ok_lines lines)
    ++ [DrainEof is_stderr].
Proof.
  induction lines as [|[l|] rest IH]; simpl; [reflexivity | | exact IH].
  rewrite IH. reflexivity.
Qed.

Lemma filter_all_true (p : Action -> bool) (a : list Action) :
  (forall x, In x a -> p x = true) -> filter p a = a.
Proof.
  induction a as [|y a IH]; intros H; simpl; [reflexivity|].
  rewrite (H y (or_introl eq_refl)), IH; [reflexivity|].
  intros x Hx; apply H; right; exact Hx.
Qed.

Lemma filter_all_false (p : Action -> bool) (a : list Action) :
  (forall x, In x a -> p x = false) -> filter p a = [].
Proof.
  induction a as [|y a IH]; intros H; simpl; [reflexivity|].
  rewrite (H y (or_introl eq_refl)). apply IH.
  intros x Hx; apply H; right; exact Hx.
Qed.

Lemma filter_interleave (p : Action -> bool) (sched : list bool)
    (a c : list Action) :
  (forall x, In x a -> p x = true) -> (forall x, In x c -> p x = false) ->
  filter p (interleave sched a c) = a /\ filter (fun x => negb (p x)) (interleave sched a c) = c.
Proof.
  revert a c; induction sched as [|[] s IH]; intros a c Ha Hc; simpl.
  - rewrite !filter_app, (filter_all_true p a Ha), (filter_all_false p c Hc).
    rewrite (filter_all_false (fun x => negb (p x)) a),
            (filter_all_true (fun x => negb (p x)) c).
    + split; [apply app_nil_r | reflexivity].
    + intros x Hx; rewrite Hc by exact Hx; reflexivity.
    + intros x Hx; rewrite Ha by exact Hx; reflexivity.
  - destruct a as [|y a]; simpl.
    + apply IH; [intros x [] | exact Hc].
    + rewrite (Ha y (or_introl eq_refl)); simpl.
      destruct (IH a c) as [H1 H2];
        [intros x Hx; apply Ha; right; exact Hx | exact Hc |].
      rewrite H1, H2. split; reflexivity.
  - destruct c as [|y c]; simpl.
    + apply IH; [exact Ha | intros x []].
    + rewrite (Hc y (or_introl eq_refl)); simpl.
      destruct (IH a c) as [H1 H2];
        [exact Ha | intros x Hx; apply Hc; right; exact Hx |].
      rewrite H1, H2. split; reflexivity.
Qed.

Lemma drain_steps_of_output (lines : list (option string)) (s t : bool) :
  forall x, In x (process_output lines s) -> drain_step_of t x = Bool.eqb s t.
Proof.
  rewrite process_output_shape. intros x Hx.
  apply in_app_iff in Hx as [Hx|[<-|[]]].
  - apply in_map_iff in Hx as [l [<- _]]. reflexivity.
  - reflexivity.
Qed.

Lemma report_wait_no_drain_step (w : WaitResult) (t : bool) :
  filter (drain_step_of t) (report_wait w) = [].
Proof.
  destruct w as [[[c|]]|e]; simpl; [|reflexivity|reflexivity].
  destruct (negb (success _)); reflexivity.
Qed.

(** Per-stream order: whatever the interleaving of the two drain threads,
    the stdout steps of a command's trace are exactly what the stdout
    thread printed, in order, and the stderr steps what the stderr thread
    printed. *)
Theorem run_command_preserves_stream_order
    (sched : list bool) (out err : list (option string)) (w : WaitResult) :
  filter (drain_step_of false) (fst (run_command sched (SpawnOk out err w)))
    = process_output out false
  /\ filter (drain_step_of true) (fst (run_command sched (SpawnOk out err w)))
    = process_output err true.
Proof.
  destruct (filter_interleave (drain_step_of false) sched
              (process_output out false) (process_output err true)) as [H1 H2].
  { intros x Hx. rewrite (drain_steps_of_output out false false x Hx). reflexivity. }
  { intros x Hx. rewrite (drain_steps_of_output err true false x Hx). reflexivity. }
  unfold run_command; cbn [fst]. rewrite !filter_app, !report_wait_no_drain_step. simpl.
  rewrite !app_nil_r. split; [exact H1|].
  rewrite <- H2 at 2. apply filter_ext_in.
  intros x Hx. apply in_interleave in Hx as [Hx|Hx].
  - rewrite (drain_steps_of_output out false true x Hx),
            (drain_steps_of_output out false false x Hx). reflexivity.
  - rewrite (drain_steps_of_output err true true x Hx),
            (drain_steps_of_output err true false x Hx). reflexivity.
Qed.

(** Once [should_trigger] holds it keeps holding as time passes, as long as
    the buffer is not changed. *)
Lemma should_trigger_true (b : EventBuffer) (q : Duration) (now : Instant) :
  should_trigger b q now = true <->
  b.(events) <> [] /\ duration_since now (last b.(events) 0) >= q.
Proof.
  destruct b as [l w]; unfold should_trigger; simpl.
  destruct l as [|t l].
  - simpl. split; [discriminate | intros [H _]; congruence].
  - rewrite (back_last (t :: l) 0) by discriminate.
    simpl negb; rewrite andb_true_r, Z.geb_le.
    split; [intros H; split; [discriminate | lia] | intros [_ H]; lia].
Qed.

Theorem should_trigger_monotone (b : EventBuffer) (q : Duration)
    (now now' : Instant) :
  now <= now' -> should_trigger b q now = true -> should_trigger b q now' = true.
Proof.
  intros Hle H. apply should_trigger_true in H as [Hne Hq].
  apply should_trigger_true. split; [exact Hne|].
  unfold duration_since in *. lia.
Qed.

Lemma should_trigger_monotone_witness :
  ms 800 <= ms 900 /\ should_trigger burst_buffer (ms 500) (ms 800) = true
  /\ should_trigger burst_buffer (ms 500) (ms 900) = true.
Proof.
  assert (H1 : ms 800 <= ms 900) by (unfold ms; lia).
  assert (H2 : should_trigger burst_buffer (ms 500) (ms 800) = true)
    by (vm_compute; reflexivity).
  split; [exact H1|]. split; [exact H2|].
  exact (should_trigger_monotone burst_buffer (ms 500) (ms 800) (ms 900) H1 H2).
Defined.

Lemma prune_front_suffix (now : Instant) (w : Duration) (l : list Instant) :
  exists pre, l = pre ++ prune_front now w l.
Proof.
  induction l as [|t l [pre IH]]; simpl; [exists []; reflexivity|].
  destruct (duration_since now t >? w).
  - exists (t :: pre). simpl. rewrite <- IH. reflexivity.
  - exists []. reflexivity.
Qed.

Lemma strongly_sorted_suffix (pre l : list Instant) :
  StronglySorted Z.le (pre ++ l) -> StronglySorted Z.le l.
Proof.
  induction pre as [|x pre IH]; intros H; [exact H|].
  inversion H; subst. apply IH. assumption.
Qed.

Lemma strongly_sorted_snoc (l : list Instant) (t : Instant) :
  StronglySorted Z.le l -> Forall (fun x => x <= t) l ->
  StronglySorted Z.le (l ++ [t]).
Proof.
  induction l as [|x l IH]; intros Hs Hf; simpl.
  - repeat constructor.
  - inversion Hs as [|? ? Hs' Hx]; subst. inversion Hf as [|? ? Hxt Hf']; subst.
    constructor; [apply IH; assumption|].
    apply Forall_app; split; [exact Hx | constructor; [exact Hxt | constructor]].
Qed.

(** [add_event] keeps the buffer invariant: if the timestamps are ordered
    and none is later than [t], and [t <= now], then afterwards they are
    ordered and none is later than [now]. *)
Lemma add_event_buffer_ok (b : EventBuffer) (t now : Instant) :
  buffer_ok b t -> t <= now -> buffer_ok (add_event b now) now.
Proof.
  intros [Hs Hf] Htn. unfold buffer_ok; simpl.
  destruct (prune_front_suffix now (window b) (events b)) as [pre Hpre].
  rewrite Hpre in Hs, Hf.
  apply Sorted_StronglySorted in Hs; [|exact Z.le_trans].
  apply strongly_sorted_suffix in Hs.
  apply Forall_app in Hf as [_ Hf].
  assert (Hf' : Forall (fun x => x <= now) (prune_front now (window b) (events b))).
  { eapply Forall_impl; [|exact Hf]. intros x Hx. simpl in Hx. lia. }
  split.
  - apply StronglySorted_Sorted. apply strongly_sorted_snoc; assumption.
  - apply Forall_app. split; [exact Hf' | constructor; [lia | constructor]].
Qed.

(** One turn of the loop keeps the buffer invariant (timestamps ordered,
    none in the future) when the clock does not go backwards. *)
Theorem loop_step_buffer_ok (cfg : Config) (b : EventBuffer) (t : Instant)
    (i : LoopInput) (b' : EventBuffer) (tr : list Action) :
  buffer_ok b t -> t <= i.(li_now) ->
  loop_step cfg b i = StepContinue b' tr -> buffer_ok b' i.(li_now).
Proof.
  intros Hok Ht Hstep. unfold loop_step in Hstep.
  destruct (li_recv i) as [ev| |]; [| |discriminate].
  - destruct (negb (is_relevant_event (kind ev))); [injection Hstep as <- _|].
    + destruct Hok as [Hs Hf]. split; [exact Hs|].
      eapply Forall_impl; [|exact Hf]. intros x Hx. simpl in Hx. lia.
    + destruct (negb _); injection Hstep as <- _.
      * destruct Hok as [Hs Hf]. split; [exact Hs|].
        eapply Forall_impl; [|exact Hf]. intros x Hx. simpl in Hx. lia.
      * eapply add_event_buffer_ok; eassumption.
  - destruct (should_trigger _ _ _).
    + destruct (run_command _ _) as [tr0 [u|e]]; [|discriminate].
      injection Hstep as <- _. split; simpl; constructor.
    + injection Hstep as <- _.
      destruct Hok as [Hs Hf]. split; [exact Hs|].
      eapply Forall_impl; [|exact Hf]. intros x Hx. simpl in Hx. lia.
Qed.

Lemma loop_step_buffer_ok_witness :
  buffer_ok burst_buffer (ms 300) /\ ms 300 <= ms 400
  /\ loop_step example_config burst_buffer
       {| li_recv := RecvOk main_rs_modified; li_now := ms 400; li_sched := [];
          li_spawn := SpawnFail (mkError "unused"%string) |}
     = StepContinue (add_event burst_buffer (ms 400)) []
  /\ buffer_ok (add_event burst_buffer (ms 400)) (ms 400).
Proof.
  assert (H1 : buffer_ok burst_buffer (ms 300)).
  { unfold buffer_ok. rewrite burst_buffer_events. unfold ms.
    split; repeat constructor; lia. }
  assert (H2 : ms 300 <= ms 400) by (unfold ms; lia).
  assert (H3 : loop_step example_config burst_buffer
       {| li_recv := RecvOk main_rs_modified; li_now := ms 400; li_sched := [];
          li_spawn := SpawnFail (mkError "unused"%string) |}
     = StepContinue (add_event burst_buffer (ms 400)) []) by (vm_compute; reflexivity).
  split; [exact H1|]. split; [exact H2|]. split; [exact H3|].
  exact (loop_step_buffer_ok example_config burst_buffer (ms 300)
           {| li_recv := RecvOk main_rs_modified; li_now := ms 400; li_sched := [];
              li_spawn := SpawnFail (mkError "unused"%string) |} _ _ H1 H2 H3).
Defined.

Lemma timeouts_on_empty_buffer (cfg : Config) (b : EventBuffer)
    (inputs : list LoopInput) :
  b.(events) = [] -> Forall (fun i => li_recv i = RecvTimeout) inputs ->
  run_loop cfg b inputs = ([], LoopRunning b).
Proof.
  intros Hb Hall. induction Hall as [|i rest Hi Hrest IH]; [reflexivity|].
  simpl. unfold loop_step. rewrite Hi.
  unfold should_trigger at 1. rewrite Hb. simpl. rewrite IH. reflexivity.
Qed.

Lemma count_spawned_app (a c : list Action) :
  count_spawned (a ++ c) = (count_spawned a + count_spawned c)%nat.
Proof. unfold count_spawned. rewrite filter_app, length_app. reflexivity. Qed.

Lemma count_spawned_output (lines : list (option string)) (s : bool) :
  count_spawned (process_output lines s) = 0%nat.
Proof. induction lines as [|[l|] rest IH]; simpl; auto. Qed.

Lemma count_spawned_interleave (sched : list bool) (a c : list Action) :
  count_spawned (interleave sched a c) = (count_spawned a + count_spawned c)%nat.
Proof.
  revert a c; induction sched as [|[] s IH]; intros a c.
  - apply count_spawned_app.
  - destruct a as [|y a]; cbn [interleave]; [apply IH|].
    change (y :: interleave s a c) with ([y] ++ interleave s a c).
    change (y :: a) with ([y] ++ a).
    rewrite !count_spawned_app, IH. lia.
  - destruct c as [|y c]; cbn [interleave]; [apply IH|].
    change (y :: interleave s a c) with ([y] ++ interleave s a c).
    change (y :: c) with ([y] ++ c).
    rewrite !count_spawned_app, IH. lia.
Qed.

Lemma count_spawned_report (w : WaitResult) : count_spawned (report_wait w) = 0%nat.
Proof.
  destruct w as [[[c|]]|e]; simpl; try reflexivity;
    destruct (negb _); try destruct c; reflexivity.
Qed.

(** No double run: over any sequence of receive timeouts with no new event,
    the loop spawns the command at most once, because a run clears the
    buffer and an empty buffer never triggers. *)
Theorem timeouts_spawn_at_most_once (cfg : Config) (b : EventBuffer)
    (inputs : list LoopInput) :
  Forall (fun i => li_recv i = RecvTimeout) inputs ->
  (count_spawned (fst (run_loop cfg b inputs)) <= 1)%nat.
Proof.
  intros Hall. revert b. induction Hall as [|i rest Hi Hrest IH]; intros b;
    [unfold count_spawned; simpl; lia|].
  simpl. unfold loop_step at 1. rewrite Hi.
  destruct (should_trigger b (cfg_quiet_period cfg) (li_now i)).
  - destruct (li_spawn i) as [e|out err w]; simpl.
    + unfold count_spawned; simpl. lia.
    + rewrite (timeouts_on_empty_buffer cfg (clear b) rest eq_refl Hrest). simpl.
      rewrite app_nil_r.
      change (Print false MsgChangeDetected :: Print false MsgExecuting :: Spawned :: ?x)
        with ([Print false MsgChangeDetected; Print false MsgExecuting; Spawned] ++ x).
      change (Joined false :: Joined true :: Waited :: report_wait w)
        with ([Joined false; Joined true; Waited] ++ report_wait w).
      rewrite !count_spawned_app, count_spawned_interleave,
        !count_spawned_output, count_spawned_report.
      unfold count_spawned; simpl. lia.
  - destruct (run_loop cfg b rest) as [tr r] eqn:E. simpl.
    specialize (IH b). rewrite E in IH. exact IH.
Qed.

Lemma timeouts_spawn_at_most_once_witness :
  Forall (fun i => li_recv i = RecvTimeout) quiet_ticks
  /\ (count_spawned (fst (run_loop example_config burst_buffer quiet_ticks)) <= 1)%nat.
Proof.
  assert (H : Forall (fun i => li_recv i = RecvTimeout) quiet_ticks)
    by (repeat constructor).
  split; [exact H|].
  exact (timeouts_spawn_at_most_once example_config burst_buffer quiet_ticks H).
Defined.

Lemma list_ascii_of_string_append (s t : string) :
  list_ascii_of_string (s ++ t) = list_ascii_of_string s ++ list_ascii_of_string t.
Proof. induction s as [|c s IH]; simpl; [reflexivity | rewrite IH; reflexivity]. Qed.

Lemma split_slash_not_nil (l : list ascii) : split_slash l <> [].
Proof.
  induction l as [|c l IH]; simpl; [discriminate|].
  destruct (Ascii.eqb c "/"%char); [discriminate|].
  destruct (split_slash l); discriminate.
Qed.

Lemma split_slash_app_slash (l1 l2 : list ascii) :
  split_slash (l1 ++ "/"%char :: l2) = split_slash l1 ++ split_slash l2.
Proof.
  induction l1 as [|c l1 IH]; [reflexivity|].
  simpl. destruct (Ascii.eqb c "/"%char); [rewrite IH; reflexivity|].
  rewrite IH. destruct (split_slash l1) as [|p ps] eqn:E.
  - exfalso. exact (split_slash_not_nil l1 E).
  - reflexivity.
Qed.

Lemma split_slash_no_slash (l : list ascii) :
  ~ In "/"%char l -> split_slash l = [l].
Proof.
  induction l as [|c l IH]; intros H; [reflexivity|].
  simpl. destruct (Ascii.eqb c "/"%char) eqn:E.
  - apply Ascii.eqb_eq in E. subst. exfalso. apply H. left. reflexivity.
  - rewrite IH; [reflexivity|]. intros Hin. apply H. right. exact Hin.
Qed.

Lemma last_piece_snoc (ps : list (list ascii)) (p : list ascii) :
  last_piece (ps ++ [p]) = Some p.
Proof.
  induction ps as [|q ps IH]; [reflexivity|].
  simpl. destruct (ps ++ [p]) eqn:E; [destruct ps; discriminate | exact IH].
Qed.

Lemma keep_piece_true (p : list ascii) :
  p <> [] -> p <> ["."%char] -> keep_piece p = true.
Proof.
  intros H1 H2. destruct p as [|c [|c' t]]; [congruence| |];
    destruct c as [[] [] [] [] [] [] [] []]; try reflexivity; congruence.
Qed.

(** The extension is read off the last path component only: a dot in a
    directory name does not count, so [dir/name] and [name] have the same
    extension and match the same extension lists, for a component [name]
    with no slash that is neither empty nor [.]. *)
Theorem extension_last_component (dir name : string) :
  ~ In "/"%char (list_ascii_of_string name) ->
  name <> ""%string -> name <> "."%string ->
  extension (dir ++ "/" ++ name) = extension name
  /\ (forall exts, has_matching_extension (dir ++ "/" ++ name) exts
                   = has_matching_extension name exts).
Proof.
  intros Hs He Hd.
  assert (Hk : keep_piece (list_ascii_of_string name) = true).
  { apply keep_piece_true.
    - destruct name; [congruence | discriminate].
    - destruct name as [|c [|c' n]]; [congruence | | discriminate].
      simpl. intros Hc. injection Hc as ->. congruence. }
  assert (Hf : file_name (dir ++ "/" ++ name) = file_name name).
  { unfold file_name.
    rewrite !list_ascii_of_string_append. simpl.
    rewrite split_slash_app_slash, (split_slash_no_slash _ Hs), filter_app.
    simpl. rewrite Hk, last_piece_snoc. reflexivity. }
  assert (Hx : extension (dir ++ "/" ++ name) = extension name)
    by (unfold extension; rewrite Hf; reflexivity).
  split; [exact Hx|].
  intros exts. unfold has_matching_extension. rewrite Hx. reflexivity.
Qed.

Lemma extension_last_component_witness :
  (~ In "/"%char (list_ascii_of_string "README") /\ "README"%string <> ""%string
   /\ "README"%string <> "."%string)
  /\ extension ("a.rs" ++ "/" ++ "README") = extension "README"
  /\ (forall exts, has_matching_extension ("a.rs" ++ "/" ++ "README") exts
                   = has_matching_extension "README" exts).
Proof.
  assert (H1 : ~ In "/"%char (list_ascii_of_string "README"))
    by (simpl; intros H; repeat destruct H as [H|H]; discriminate H || exact H).
  assert (H2 : "README"%string <> ""%string) by discriminate.
  assert (H3 : "README"%string <> "."%string) by discriminate.
  split; [split; [exact H1 | split; [exact H2 | exact H3]]|].
  exact (extension_last_component "a.rs" "README" H1 H2 H3).
Defined.

Lemma break_at_none (c : ascii) (l : list ascii) :
  ~ In c l -> break_at c l = None.
Proof.
  induction l as [|x l IH]; intros H; [reflexivity|]. simpl.
  destruct (Ascii.eqb x c) eqn:E.
  - apply Ascii.eqb_eq in E. subst. exfalso. apply H. left. reflexivity.
  - rewrite IH; [reflexivity|]. intros Hin. apply H. right. exact Hin.
Qed.

Lemma break_at_app (c : ascii) (l m : list ascii) :
  ~ In c l -> break_at c (l ++ c :: m) = Some (l, m).
Proof.
  induction l as [|x l IH]; intros H; simpl.
  - rewrite Ascii.eqb_refl. reflexivity.
  - destruct (Ascii.eqb x c) eqn:E.
    + apply Ascii.eqb_eq in E. subst. exfalso. apply H. left. reflexivity.
    + rewrite IH; [reflexivity|]. intros Hin. apply H. right. exact Hin.
Qed.

(** A file name with no dot, or whose only dot is its first character (a
    hidden file such as [.gitignore]), has no extension, so the path never
    matches a non-empty extension list. *)
Theorem no_extension_never_matches (path : string) (name : list ascii)
    (exts : list string) :
  file_name path = Some name ->
  (~ In "."%char name \/ exists rest, name = "."%char :: rest /\ ~ In "."%char rest) ->
  exts <> [] ->
  extension path = None /\ has_matching_extension path exts = false.
Proof.
  intros Hf Hn Hne.
  assert (Hx : extension path = None).
  { unfold extension. rewrite Hf. unfold name_extension.
    destruct Hn as [Hn|[rest [-> Hr]]].
    - rewrite break_at_none; [reflexivity|]. rewrite <- in_rev. exact Hn.
    - simpl. rewrite break_at_app; [reflexivity|]. rewrite <- in_rev. exact Hr. }
  split; [exact Hx|].
  unfold has_matching_extension. destruct exts; [congruence|]. rewrite Hx. reflexivity.
Qed.

Lemma no_extension_never_matches_witness :
  (file_name "src/.gitignore" = Some (list_ascii_of_string ".gitignore")
   /\ (~ In "."%char (list_ascii_of_string ".gitignore")
       \/ exists rest, list_ascii_of_string ".gitignore" = "."%char :: rest
                       /\ ~ In "."%char rest)
   /\ ["gitignore"%string] <> [])
  /\ extension "src/.gitignore" = None
  /\ has_matching_extension "src/.gitignore" ["gitignore"%string] = false.
Proof.
  assert (H1 : file_name "src/.gitignore" = Some (list_ascii_of_string ".gitignore"))
    by (vm_compute; reflexivity).
  assert (H2 : ~ In "."%char (list_ascii_of_string ".gitignore")
       \/ exists rest, list_ascii_of_string ".gitignore" = "."%char :: rest
                       /\ ~ In "."%char rest).
  { right. eexists. split; [reflexivity|].
    simpl. intros H; repeat destruct H as [H|H]; discriminate H || exact H. }
  assert (H3 : ["gitignore"%string] <> []) by discriminate.
  split; [split; [exact H1 | split; [exact H2 | exact H3]]|].
  exact (no_extension_never_matches _ _ _ H1 H2 H3).
Defined.

(** No run mid-burst: on a receive timeout, if the buffer is empty or its
    last event is younger than the quiet period, the loop neither prints
    nor spawns and keeps the buffer. *)
Theorem quiet_not_elapsed_no_run (cfg : Config) (b : EventBuffer) (now : Instant)
    (sched : list bool) (sp : SpawnResult) :
  (b.(events) = [] \/ duration_since now (last b.(events) 0) < cfg.(cfg_quiet_period)) ->
  loop_step cfg b {| li_recv := RecvTimeout; li_now := now; li_sched := sched;
                     li_spawn := sp |} = StepContinue b [].
Proof.
  intros H. unfold loop_step; simpl.
  destruct (should_trigger b (cfg_quiet_period cfg) now) eqn:E; [|reflexivity].
  apply should_trigger_true in E as [Hne Hq].
  destruct H as [H|H]; [congruence | lia].
Qed.

Lemma quiet_not_elapsed_no_run_witness :
  (events burst_buffer = []
   \/ duration_since (ms 600) (last (events burst_buffer) 0)
        < example_config.(cfg_quiet_period))
  /\ loop_step example_config burst_buffer
       {| li_recv := RecvTimeout; li_now := ms 600; li_sched := [];
          li_spawn := SpawnFail (mkError "unused"%string) |}
     = StepContinue burst_buffer [].
Proof.
  assert (H : events burst_buffer = []
   \/ duration_since (ms 600) (last (events burst_buffer) 0)
        < example_config.(cfg_quiet_period)).
  { right. rewrite burst_buffer_events. vm_compute. reflexivity. }
  split; [exact H|].
  exact (quiet_not_elapsed_no_run example_config burst_buffer (ms 600) [] _ H).
Defined.
